(** * HugeInt: the native multiply-high helper

    A shallow embedding of [src/nativeInterop/cinterop/unsigned_mul_hi.c]

    <<
      uint64_t unsigned_mul_hi(uint64_t x, uint64_t y) {
          __uint128_t p = (__uint128_t)x * (__uint128_t)y;
          return (uint64_t)(p >> 64);
      }
    >>

    Unsigned C integers of width [w] are mathematical integers of [Z] in
    [0, 2^w), every wrap-around is written out, and the one operator of the
    body that C leaves undefined for some operands (the shift) is partial.
    The function itself runs in a small state-and-failure monad over the
    store of the abstract machine, so that "has defined behaviour and
    returns a value" is a statement about the embedding. The body uses no
    operation on the store; that it reads and writes nothing is how it is
    written down here, not a theorem of this file. *)

From Stdlib Require Import Bool ZArith Lia.

Local Open Scope bool_scope.
Local Open Scope Z_scope.

(** ** Unsigned integer types of C *)

Module CUnsigned.

(** [UINT64_MAX] of <stdint.h>. *)
Definition UINT64_MAX : Z := 0xFFFFFFFFFFFFFFFF.

(** The values of [uint64_t]. *)
Definition is_uint64 (v : Z) : Prop := 0 <= v <= UINT64_MAX.

(** Conversion to the unsigned type of width [w] (the casts
    [(__uint128_t)] and [(uint64_t)]): the value is reduced modulo
    [2^w]. *)
Definition cast (w v : Z) : Z := v mod 2 ^ w.

(** [a * b] at the unsigned type of width [w]: the product wraps
    modulo [2^w]. *)
Definition umul (w a b : Z) : Z := (a * b) mod 2 ^ w.

(** [a >> n] at the unsigned type of width [w]: undefined when the
    count is negative or not below the width, a logical shift
    otherwise. *)
Definition ushr (w a n : Z) : option Z :=
  if (0 <=? n) && (n <? w) then Some (Z.shiftr a n) else None.

End CUnsigned.

Import CUnsigned.

(** ** Computations of the abstract machine *)

Section Machine.

(** Whatever of the machine outlives a call: objects with static storage,
    the heap, the environment. *)
Context {world : Type}.

(** A computation starts in a store and either yields a value and the
    store it leaves behind, or has no defined behaviour. *)
Definition comp (A : Type) : Type := world -> option (A * world).

Definition ret {A : Type} (a : A) : comp A := fun w => Some (a, w).

Definition bind {A B : Type} (m : comp A) (k : A -> comp B) : comp B :=
  fun w => match m w with
           | Some (a, w') => k a w'
           | None => None
           end.

(** An operator with undefined cases, used as an expression. *)
Definition eval {A : Type} (o : option A) : comp A :=
  fun w => match o with
           | Some a => Some (a, w)
           | None => None
           end.

Local Notation "v <- m ;; k" := (bind m (fun v => k))
  (at level 61, m at next level, right associativity).

(** ** The function *)

Definition unsigned_mul_hi (x y : Z) : comp Z :=
  let p := umul 128 (cast 128 x) (cast 128 y) in
  s <- eval (ushr 128 p 64) ;;
  ret (cast 64 s).

End Machine.

(** ** Arithmetic of the body *)

Ltac unfold_uint := unfold is_uint64, UINT64_MAX in *.

Lemma cast128_uint64 (x : Z) : is_uint64 x -> cast 128 x = x.
Proof.
  intros Hx. unfold cast. apply Z.mod_small. unfold_uint. lia.
Qed.

(** The 128-bit product of two 64-bit values is exact: it never wraps. *)
Lemma umul128_exact (x y : Z) :
  is_uint64 x -> is_uint64 y -> umul 128 x y = x * y.
Proof.
  intros Hx Hy. unfold umul. apply Z.mod_small. unfold_uint. nia.
Qed.

Lemma ushr128_64 (p : Z) : ushr 128 p 64 = Some (p / 2 ^ 64).
Proof.
  unfold ushr. simpl. rewrite Z.shiftr_div_pow2 by lia. reflexivity.
Qed.

(** The shift is partial in earnest: a count equal to the width has no
    defined result, while the count 64 of the body has one. *)
Example ushr128_width_undefined : ushr 128 1 128 = None.
Proof. reflexivity. Qed.

Lemma high_half_bounds (x y : Z) :
  is_uint64 x -> is_uint64 y -> 0 <= x * y / 2 ^ 64 <= UINT64_MAX.
Proof.
  intros Hx Hy. unfold_uint. split.
  - apply Z.div_pos; nia.
  - assert (x * y / 2 ^ 64 < 2 ^ 64); [|lia].
    apply Z.div_lt_upper_bound; nia.
Qed.

Lemma cast64_high_half (x y : Z) :
  is_uint64 x -> is_uint64 y -> cast 64 (x * y / 2 ^ 64) = x * y / 2 ^ 64.
Proof.
  intros Hx Hy. unfold cast. apply Z.mod_small.
  pose proof (high_half_bounds x y Hx Hy). unfold_uint. lia.
Qed.

(** What a call computes, and in which store it ends. *)
Lemma unsigned_mul_hi_run {world : Type} (w : world) (x y : Z) :
  is_uint64 x -> is_uint64 y ->
  unsigned_mul_hi x y w = Some (x * y / 2 ^ 64, w).
Proof.
  intros Hx Hy. unfold unsigned_mul_hi, bind, eval, ret.
  rewrite !cast128_uint64, umul128_exact, ushr128_64 by assumption.
  rewrite cast64_high_half by assumption. reflexivity.
Qed.

Lemma high_half_monotone (x x' y : Z) :
  is_uint64 x -> is_uint64 x' -> is_uint64 y -> x <= x' ->
  x * y / 2 ^ 64 <= x' * y / 2 ^ 64.
Proof.
  intros Hx Hx' Hy Hle. unfold_uint.
  apply Z.div_le_mono; nia.
Qed.

Lemma high_half_below_operand (x y : Z) :
  is_uint64 x -> is_uint64 y -> 1 <= x -> x * y / 2 ^ 64 < x.
Proof.
  intros Hx Hy Hpos. unfold_uint.
  apply Z.div_lt_upper_bound; nia.
Qed.

(** ** The contract of [unsigned_mul_hi] *)

(** C1. For all unsigned 64-bit [x] and [y], a call returns
    [floor (x * y / 2^64)], where [x * y] is the exact product of the
    integers. *)
Theorem unsigned_mul_hi_floor {world : Type} (w : world) (x y : Z) :
  is_uint64 x -> is_uint64 y ->
  unsigned_mul_hi x y w = Some (x * y / 2 ^ 64, w).
Proof.
  intros Hx Hy. now apply unsigned_mul_hi_run.
Qed.

Lemma unsigned_mul_hi_floor_witness :
  is_uint64 12345678901234567890 /\ is_uint64 9876543210987654321 /\
  unsigned_mul_hi 12345678901234567890 9876543210987654321 tt
  = Some (12345678901234567890 * 9876543210987654321 / 2 ^ 64, tt).
Proof.
  assert (Hx : is_uint64 12345678901234567890) by (unfold_uint; lia).
  assert (Hy : is_uint64 9876543210987654321) by (unfold_uint; lia).
  exact (conj Hx (conj Hy (unsigned_mul_hi_floor tt _ _ Hx Hy))).
Defined.

(** C2. The function is total on its domain: for all unsigned 64-bit [x]
    and [y] the call has defined behaviour and returns a value of
    [uint64_t]; no operand makes the shift undefined. *)
Theorem unsigned_mul_hi_total {world : Type} (w : world) (x y : Z) :
  is_uint64 x -> is_uint64 y ->
  exists (r : Z) (w' : world),
    unsigned_mul_hi x y w = Some (r, w') /\ is_uint64 r.
Proof.
  intros Hx Hy. exists (x * y / 2 ^ 64), w. split.
  - now apply unsigned_mul_hi_run.
  - now apply high_half_bounds.
Qed.

Lemma unsigned_mul_hi_total_witness :
  is_uint64 UINT64_MAX /\ is_uint64 UINT64_MAX /\
  exists (r : Z) (w' : unit),
    unsigned_mul_hi UINT64_MAX UINT64_MAX tt = Some (r, w') /\ is_uint64 r.
Proof.
  assert (Hm : is_uint64 UINT64_MAX) by (unfold_uint; lia).
  exact (conj Hm (conj Hm (unsigned_mul_hi_total tt _ _ Hm Hm))).
Defined.

(** C3. Commutativity: for all unsigned 64-bit [x] and [y],
    [unsigned_mul_hi x y] and [unsigned_mul_hi y x] return the same. *)
Theorem unsigned_mul_hi_comm {world : Type} (w : world) (x y : Z) :
  is_uint64 x -> is_uint64 y ->
  unsigned_mul_hi x y w = unsigned_mul_hi y x w.
Proof.
  intros Hx Hy.
  rewrite (unsigned_mul_hi_run w x y), (unsigned_mul_hi_run w y x)
    by assumption.
  now rewrite (Z.mul_comm x y).
Qed.

Lemma unsigned_mul_hi_comm_witness :
  is_uint64 (2 ^ 63 + 5) /\ is_uint64 7 /\
  unsigned_mul_hi (2 ^ 63 + 5) 7 tt = unsigned_mul_hi 7 (2 ^ 63 + 5) tt.
Proof.
  assert (Hx : is_uint64 (2 ^ 63 + 5)) by (unfold_uint; lia).
  assert (Hy : is_uint64 7) by (unfold_uint; lia).
  exact (conj Hx (conj Hy (unsigned_mul_hi_comm tt _ _ Hx Hy))).
Defined.

(** C4. Zero is absorbing: for every unsigned 64-bit [x],
    [unsigned_mul_hi x 0] returns 0, and for every unsigned 64-bit [y],
    [unsigned_mul_hi 0 y] returns 0. *)
Theorem unsigned_mul_hi_zero {world : Type} (w : world) (x y : Z) :
  is_uint64 x -> is_uint64 y ->
  unsigned_mul_hi x 0 w = Some (0, w) /\ unsigned_mul_hi 0 y w = Some (0, w).
Proof.
  intros Hx Hy.
  assert (H0 : is_uint64 0) by (unfold_uint; lia).
  rewrite (unsigned_mul_hi_run w x 0), (unsigned_mul_hi_run w 0 y)
    by assumption.
  now rewrite Z.mul_0_r, Z.mul_0_l.
Qed.

Lemma unsigned_mul_hi_zero_witness :
  is_uint64 UINT64_MAX /\ is_uint64 (2 ^ 40) /\
  unsigned_mul_hi UINT64_MAX 0 tt = Some (0, tt) /\
  unsigned_mul_hi 0 (2 ^ 40) tt = Some (0, tt).
Proof.
  assert (Hx : is_uint64 UINT64_MAX) by (unfold_uint; lia).
  assert (Hy : is_uint64 (2 ^ 40)) by (unfold_uint; lia).
  exact (conj Hx (conj Hy (unsigned_mul_hi_zero tt _ _ Hx Hy))).
Defined.

(** C5. Multiplying by one leaves the high half empty: for every unsigned
    64-bit [x], [unsigned_mul_hi x 1] returns 0. *)
Theorem unsigned_mul_hi_one {world : Type} (w : world) (x : Z) :
  is_uint64 x -> unsigned_mul_hi x 1 w = Some (0, w).
Proof.
  intros Hx.
  assert (H1 : is_uint64 1) by (unfold_uint; lia).
  rewrite (unsigned_mul_hi_run w x 1) by assumption.
  rewrite Z.mul_1_r, Z.div_small; [reflexivity | unfold_uint; lia].
Qed.

Lemma unsigned_mul_hi_one_witness :
  is_uint64 UINT64_MAX /\ unsigned_mul_hi UINT64_MAX 1 tt = Some (0, tt).
Proof.
  assert (Hx : is_uint64 UINT64_MAX) by (unfold_uint; lia).
  exact (conj Hx (unsigned_mul_hi_one tt _ Hx)).
Defined.

(** C6. At the maximum inputs, [unsigned_mul_hi (2^64 - 1) (2^64 - 1)]
    returns [2^64 - 2], which is [0xFFFFFFFFFFFFFFFE]. *)
Theorem unsigned_mul_hi_max {world : Type} (w : world) :
  unsigned_mul_hi (2 ^ 64 - 1) (2 ^ 64 - 1) w = Some (2 ^ 64 - 2, w) /\
  2 ^ 64 - 2 = 0xFFFFFFFFFFFFFFFE.
Proof.
  split.
  - unfold unsigned_mul_hi, bind, eval, ret, ushr, umul, cast.
    vm_compute. reflexivity.
  - reflexivity.
Qed.

(** C7. Powers of two: [unsigned_mul_hi (2^63) 2] returns 1 and
    [unsigned_mul_hi (2^32) (2^32)] returns 1. *)
Theorem unsigned_mul_hi_pow2 {world : Type} (w : world) :
  unsigned_mul_hi (2 ^ 63) 2 w = Some (1, w) /\
  unsigned_mul_hi (2 ^ 32) (2 ^ 32) w = Some (1, w).
Proof.
  split; unfold unsigned_mul_hi, bind, eval, ret, ushr, umul, cast;
    vm_compute; reflexivity.
Qed.

(** C8. Spot values: [unsigned_mul_hi 0xFFFFFFFFFFFFFFFF 2] returns 1 and
    [unsigned_mul_hi 1000000007 1000000009] returns 0. *)
Theorem unsigned_mul_hi_spot {world : Type} (w : world) :
  unsigned_mul_hi 0xFFFFFFFFFFFFFFFF 2 w = Some (1, w) /\
  unsigned_mul_hi 1000000007 1000000009 w = Some (0, w).
Proof.
  split; unfold unsigned_mul_hi, bind, eval, ret, ushr, umul, cast;
    vm_compute; reflexivity.
Qed.

(** C10. The function is monotone in each argument and stays below its
    nonzero operands: for unsigned 64-bit [x], [x'], [y] with [x <= x'],
    the value [a] of [unsigned_mul_hi x y] is at most the value of
    [unsigned_mul_hi x' y], the value of [unsigned_mul_hi y x] is at most
    that of [unsigned_mul_hi y x'], and [a < x] whenever [1 <= x] and
    [a < y] whenever [1 <= y]. *)
Theorem unsigned_mul_hi_monotone {world : Type} (w : world) (x x' y : Z) :
  is_uint64 x -> is_uint64 x' -> is_uint64 y -> x <= x' ->
  exists a a' b b' : Z,
    unsigned_mul_hi x y w = Some (a, w) /\
    unsigned_mul_hi x' y w = Some (a', w) /\
    unsigned_mul_hi y x w = Some (b, w) /\
    unsigned_mul_hi y x' w = Some (b', w) /\
    a <= a' /\ b <= b' /\
    (1 <= x -> a < x) /\ (1 <= y -> a < y).
Proof.
  intros Hx Hx' Hy Hle.
  exists (x * y / 2 ^ 64), (x' * y / 2 ^ 64),
         (y * x / 2 ^ 64), (y * x' / 2 ^ 64).
  repeat split; try (now apply unsigned_mul_hi_run).
  - now apply high_half_monotone.
  - rewrite (Z.mul_comm y x), (Z.mul_comm y x').
    now apply high_half_monotone.
  - now apply high_half_below_operand.
  - rewrite (Z.mul_comm x y). now apply high_half_below_operand.
Qed.

Lemma unsigned_mul_hi_monotone_witness :
  is_uint64 (2 ^ 62) /\ is_uint64 (2 ^ 63) /\ is_uint64 12 /\
  2 ^ 62 <= 2 ^ 63 /\
  exists a a' b b' : Z,
    unsigned_mul_hi (2 ^ 62) 12 tt = Some (a, tt) /\
    unsigned_mul_hi (2 ^ 63) 12 tt = Some (a', tt) /\
    unsigned_mul_hi 12 (2 ^ 62) tt = Some (b, tt) /\
    unsigned_mul_hi 12 (2 ^ 63) tt = Some (b', tt) /\
    a <= a' /\ b <= b' /\
    (1 <= 2 ^ 62 -> a < 2 ^ 62) /\ (1 <= 12 -> a < 12).
Proof.
  assert (Hx : is_uint64 (2 ^ 62)) by (unfold_uint; lia).
  assert (Hx' : is_uint64 (2 ^ 63)) by (unfold_uint; lia).
  assert (Hy : is_uint64 12) by (unfold_uint; lia).
  assert (Hle : 2 ^ 62 <= 2 ^ 63) by lia.
  exact (conj Hx (conj Hx' (conj Hy (conj Hle
           (unsigned_mul_hi_monotone tt _ _ _ Hx Hx' Hy Hle))))).
Defined.

(** ** Further properties of the body *)

Lemma uint64_pow2 (k : Z) : 0 <= k < 64 -> is_uint64 (2 ^ k).
Proof.
  intros Hk. unfold_uint.
  assert (0 < 2 ^ k) by (apply Z.pow_pos_nonneg; lia).
  assert (2 ^ k <= 2 ^ 63) by (apply Z.pow_le_mono_r; lia).
  lia.
Qed.

Lemma high_half_pow2 (x k : Z) :
  0 <= k < 64 -> x * 2 ^ k / 2 ^ 64 = x / 2 ^ (64 - k).
Proof.
  intros Hk.
  replace (2 ^ 64) with (2 ^ (64 - k) * 2 ^ k)
    by (rewrite <- Z.pow_add_r by lia; f_equal; lia).
  apply Z.div_mul_cancel_r; apply Z.pow_nonzero; lia.
Qed.

Lemma high_half_times_max (x : Z) :
  is_uint64 x -> 1 <= x -> x * UINT64_MAX / 2 ^ 64 = x - 1.
Proof.
  intros Hx Hpos. unfold_uint. symmetry.
  apply Z.div_unique with (r := 2 ^ 64 - x); lia.
Qed.

Lemma high_half_add (a b : Z) :
  a / 2 ^ 64 + b / 2 ^ 64 <= (a + b) / 2 ^ 64 <= a / 2 ^ 64 + b / 2 ^ 64 + 1.
Proof.
  change (2 ^ 64) with 18446744073709551616.
  Z.div_mod_to_equations. lia.
Qed.

(** Every [r] below [y] is the high half of some product with [y]: the
    least [x] whose product with [y] reaches [r * 2^64] will do. *)
Lemma high_half_preimage (y r : Z) :
  is_uint64 y -> 0 <= r < y ->
  exists x : Z, is_uint64 x /\ x * y / 2 ^ 64 = r.
Proof.
  intros Hy Hr. exists ((r * 2 ^ 64 + y - 1) / y). unfold_uint.
  set (n := r * 2 ^ 64 + y - 1).
  assert (Hy0 : 0 < y) by lia.
  pose proof (Z.div_mod n y ltac:(lia)) as Hdm.
  pose proof (Z.mod_pos_bound n y Hy0) as Hmb.
  set (x := n / y) in *. set (t := n mod y) in *.
  assert (Hlo : r * 2 ^ 64 <= x * y) by (subst n; lia).
  assert (Hhi : x * y < (r + 1) * 2 ^ 64) by (subst n; lia).
  split.
  - split; [nia|].
    assert (x < 2 ^ 64); [|lia].
    assert (x * y < 2 ^ 64 * y) by nia. nia.
  - symmetry. apply Z.div_unique with (r := x * y - r * 2 ^ 64); lia.
Qed.

(** X1. The result is the upper word of the exact product: together with
    the wrapped 64-bit product [x * y] of C (the lower word) it gives the
    product back, [hi * 2^64 + lo = x * y]. *)
Theorem unsigned_mul_hi_lo_product {world : Type} (w : world) (x y : Z) :
  is_uint64 x -> is_uint64 y ->
  exists hi : Z,
    unsigned_mul_hi x y w = Some (hi, w) /\
    hi * 2 ^ 64 + umul 64 x y = x * y.
Proof.
  intros Hx Hy. exists (x * y / 2 ^ 64). split.
  - now apply unsigned_mul_hi_run.
  - unfold umul. pose proof (Z.div_mod (x * y) (2 ^ 64)). lia.
Qed.

Lemma unsigned_mul_hi_lo_product_witness :
  is_uint64 (2 ^ 63 + 12345) /\ is_uint64 (2 ^ 40 + 3) /\
  exists hi : Z,
    unsigned_mul_hi (2 ^ 63 + 12345) (2 ^ 40 + 3) tt = Some (hi, tt) /\
    hi * 2 ^ 64 + umul 64 (2 ^ 63 + 12345) (2 ^ 40 + 3)
    = (2 ^ 63 + 12345) * (2 ^ 40 + 3).
Proof.
  assert (Hx : is_uint64 (2 ^ 63 + 12345)) by (unfold_uint; lia).
  assert (Hy : is_uint64 (2 ^ 40 + 3)) by (unfold_uint; lia).
  exact (conj Hx (conj Hy (unsigned_mul_hi_lo_product tt _ _ Hx Hy))).
Defined.

(** X2. The result detects overflow of the 64-bit product: it is zero
    exactly when the wrapped 64-bit product [x * y] of C equals the exact
    product. *)
Theorem unsigned_mul_hi_zero_iff_fits {world : Type} (w : world) (x y : Z) :
  is_uint64 x -> is_uint64 y ->
  exists hi : Z,
    unsigned_mul_hi x y w = Some (hi, w) /\
    (hi = 0 <-> umul 64 x y = x * y).
Proof.
  intros Hx Hy. exists (x * y / 2 ^ 64). split.
  - now apply unsigned_mul_hi_run.
  - unfold umul. pose proof (Z.div_mod (x * y) (2 ^ 64)). lia.
Qed.

Lemma unsigned_mul_hi_zero_iff_fits_witness :
  is_uint64 (2 ^ 32) /\ is_uint64 (2 ^ 32 - 1) /\
  exists hi : Z,
    unsigned_mul_hi (2 ^ 32) (2 ^ 32 - 1) tt = Some (hi, tt) /\
    (hi = 0 <-> umul 64 (2 ^ 32) (2 ^ 32 - 1) = 2 ^ 32 * (2 ^ 32 - 1)).
Proof.
  assert (Hx : is_uint64 (2 ^ 32)) by (unfold_uint; lia).
  assert (Hy : is_uint64 (2 ^ 32 - 1)) by (unfold_uint; lia).
  exact (conj Hx (conj Hy (unsigned_mul_hi_zero_iff_fits tt _ _ Hx Hy))).
Defined.

(** X3. The result never reaches [UINT64_MAX]: it is at most
    [UINT64_MAX - 1], so a carry of one can be added to it without
    wrapping. *)
Theorem unsigned_mul_hi_headroom {world : Type} (w : world) (x y : Z) :
  is_uint64 x -> is_uint64 y ->
  exists hi : Z,
    unsigned_mul_hi x y w = Some (hi, w) /\ is_uint64 (hi + 1).
Proof.
  intros Hx Hy. exists (x * y / 2 ^ 64). split.
  - now apply unsigned_mul_hi_run.
  - pose proof (high_half_bounds x y Hx Hy) as Hb.
    destruct (Z.eq_dec x 0) as [-> | Hnz].
    + rewrite Z.mul_0_l, Z.div_0_l by lia. unfold_uint. lia.
    + assert (Hpos : 1 <= x) by (unfold_uint; lia).
      pose proof (high_half_below_operand x y Hx Hy Hpos).
      unfold_uint. lia.
Qed.

Lemma unsigned_mul_hi_headroom_witness :
  is_uint64 UINT64_MAX /\ is_uint64 (UINT64_MAX - 1) /\
  exists hi : Z,
    unsigned_mul_hi UINT64_MAX (UINT64_MAX - 1) tt = Some (hi, tt) /\
    is_uint64 (hi + 1).
Proof.
  assert (Hx : is_uint64 UINT64_MAX) by (unfold_uint; lia).
  assert (Hy : is_uint64 (UINT64_MAX - 1)) by (unfold_uint; lia).
  exact (conj Hx (conj Hy (unsigned_mul_hi_headroom tt _ _ Hx Hy))).
Defined.

(** X4. Multiplying by a power of two is a right shift: for [0 <= k < 64]
    and unsigned 64-bit [x], [unsigned_mul_hi x (2^k)] returns
    [floor (x / 2^(64-k))], the top [k] bits of [x]. *)
Theorem unsigned_mul_hi_pow2_shift {world : Type} (w : world) (x k : Z) :
  is_uint64 x -> 0 <= k < 64 ->
  unsigned_mul_hi x (2 ^ k) w = Some (x / 2 ^ (64 - k), w).
Proof.
  intros Hx Hk.
  rewrite unsigned_mul_hi_run by (assumption || now apply uint64_pow2).
  now rewrite high_half_pow2.
Qed.

Lemma unsigned_mul_hi_pow2_shift_witness :
  is_uint64 0xDEADBEEF00000000 /\ 0 <= 16 < 64 /\
  unsigned_mul_hi 0xDEADBEEF00000000 (2 ^ 16) tt
  = Some (0xDEADBEEF00000000 / 2 ^ (64 - 16), tt).
Proof.
  assert (Hx : is_uint64 0xDEADBEEF00000000) by (unfold_uint; lia).
  assert (Hk : 0 <= 16 < 64) by lia.
  exact (conj Hx (conj Hk (unsigned_mul_hi_pow2_shift tt _ _ Hx Hk))).
Defined.

(** X5. Multiplying by [UINT64_MAX] returns the predecessor: for every
    unsigned 64-bit [x >= 1], [unsigned_mul_hi x UINT64_MAX] returns
    [x - 1]; the bound "result below a nonzero operand" is attained. *)
Theorem unsigned_mul_hi_by_max {world : Type} (w : world) (x : Z) :
  is_uint64 x -> 1 <= x ->
  unsigned_mul_hi x UINT64_MAX w = Some (x - 1, w).
Proof.
  intros Hx Hpos.
  assert (Hm : is_uint64 UINT64_MAX) by (unfold_uint; lia).
  rewrite unsigned_mul_hi_run by assumption.
  now rewrite high_half_times_max.
Qed.

Lemma unsigned_mul_hi_by_max_witness :
  is_uint64 1 /\ 1 <= 1 /\
  unsigned_mul_hi 1 UINT64_MAX tt = Some (1 - 1, tt).
Proof.
  assert (Hx : is_uint64 1) by (unfold_uint; lia).
  assert (Hp : 1 <= 1) by lia.
  exact (conj Hx (conj Hp (unsigned_mul_hi_by_max tt _ Hx Hp))).
Defined.

(** X6. The result is additive up to one carry: for unsigned 64-bit [x],
    [x'], [y] whose sum [x + x'] is again a 64-bit value, the value of
    [unsigned_mul_hi (x + x') y] is the sum of the values for [x] and for
    [x'], or that sum plus one. *)
Theorem unsigned_mul_hi_add {world : Type} (w : world) (x x' y : Z) :
  is_uint64 x -> is_uint64 x' -> is_uint64 y -> is_uint64 (x + x') ->
  exists a b c : Z,
    unsigned_mul_hi x y w = Some (a, w) /\
    unsigned_mul_hi x' y w = Some (b, w) /\
    unsigned_mul_hi (x + x') y w = Some (c, w) /\
    a + b <= c <= a + b + 1.
Proof.
  intros Hx Hx' Hy Hs.
  exists (x * y / 2 ^ 64), (x' * y / 2 ^ 64), ((x + x') * y / 2 ^ 64).
  repeat split; try (now apply unsigned_mul_hi_run);
    rewrite Z.mul_add_distr_r; apply high_half_add.
Qed.

Lemma unsigned_mul_hi_add_witness :
  is_uint64 (2 ^ 62 + 1) /\ is_uint64 (2 ^ 62 + 2) /\ is_uint64 (2 ^ 33) /\
  is_uint64 (2 ^ 62 + 1 + (2 ^ 62 + 2)) /\
  exists a b c : Z,
    unsigned_mul_hi (2 ^ 62 + 1) (2 ^ 33) tt = Some (a, tt) /\
    unsigned_mul_hi (2 ^ 62 + 2) (2 ^ 33) tt = Some (b, tt) /\
    unsigned_mul_hi (2 ^ 62 + 1 + (2 ^ 62 + 2)) (2 ^ 33) tt = Some (c, tt) /\
    a + b <= c <= a + b + 1.
Proof.
  assert (Hx : is_uint64 (2 ^ 62 + 1)) by (unfold_uint; lia).
  assert (Hx' : is_uint64 (2 ^ 62 + 2)) by (unfold_uint; lia).
  assert (Hy : is_uint64 (2 ^ 33)) by (unfold_uint; lia).
  assert (Hs : is_uint64 (2 ^ 62 + 1 + (2 ^ 62 + 2))) by (unfold_uint; lia).
  exact (conj Hx (conj Hx' (conj Hy (conj Hs
           (unsigned_mul_hi_add tt _ _ _ Hx Hx' Hy Hs))))).
Defined.

(** X7. The result holds bits 64 to 127 of the exact product: bit [i] of
    the value returned is bit [i + 64] of [x * y], for every [i >= 0]. *)
Theorem unsigned_mul_hi_bits {world : Type} (w : world) (x y : Z) :
  is_uint64 x -> is_uint64 y ->
  exists hi : Z,
    unsigned_mul_hi x y w = Some (hi, w) /\
    forall i : Z, 0 <= i -> Z.testbit hi i = Z.testbit (x * y) (i + 64).
Proof.
  intros Hx Hy. exists (x * y / 2 ^ 64). split.
  - now apply unsigned_mul_hi_run.
  - intros i Hi. rewrite <- Z.shiftr_div_pow2 by lia.
    now apply Z.shiftr_spec.
Qed.

Lemma unsigned_mul_hi_bits_witness :
  is_uint64 0xFEDCBA9876543210 /\ is_uint64 0x0123456789ABCDEF /\
  exists hi : Z,
    unsigned_mul_hi 0xFEDCBA9876543210 0x0123456789ABCDEF tt
    = Some (hi, tt) /\
    forall i : Z, 0 <= i ->
      Z.testbit hi i
      = Z.testbit (0xFEDCBA9876543210 * 0x0123456789ABCDEF) (i + 64).
Proof.
  assert (Hx : is_uint64 0xFEDCBA9876543210) by (unfold_uint; lia).
  assert (Hy : is_uint64 0x0123456789ABCDEF) by (unfold_uint; lia).
  exact (conj Hx (conj Hy (unsigned_mul_hi_bits tt _ _ Hx Hy))).
Defined.

(** X9. With a fixed nonzero [y], the function maps the 64-bit values onto
    the whole range below [y]: every [r] with [0 <= r < y] is returned by
    [unsigned_mul_hi x y] for some unsigned 64-bit [x]. *)
Theorem unsigned_mul_hi_onto {world : Type} (w : world) (y r : Z) :
  is_uint64 y -> 0 <= r < y ->
  exists x : Z, is_uint64 x /\ unsigned_mul_hi x y w = Some (r, w).
Proof.
  intros Hy Hr.
  destruct (high_half_preimage y r Hy Hr) as (x & Hx & Hq).
  exists x. split; [assumption|].
  rewrite unsigned_mul_hi_run by assumption. now rewrite Hq.
Qed.

Lemma unsigned_mul_hi_onto_witness :
  is_uint64 10 /\ 0 <= 7 < 10 /\
  exists x : Z, is_uint64 x /\ unsigned_mul_hi x 10 tt = Some (7, tt).
Proof.
  assert (Hy : is_uint64 10) by (unfold_uint; lia).
  assert (Hr : 0 <= 7 < 10) by lia.
  exact (conj Hy (conj Hr (unsigned_mul_hi_onto tt _ _ Hy Hr))).
Defined.
